(** * The Tailwind theme extension of vite-vue-tailwind-101

    The repository's only structured artefact is its Tailwind configuration
    object: a [content] glob list and, under [theme.extend], a [keyframes]
    map and an [animation] map of CSS shorthand strings.  This development
    embeds that object literally (strings included), gives the reading that
    the styling tool makes of it (CSS numbers, keyframe selectors, the
    [animation] shorthand, glob patterns), and proves the properties of the
    animation table on the embedded data. *)

From Stdlib Require Import String Ascii List Bool Arith ZArith QArith Lia.
From Stdlib Require Import Permutation.
Import ListNotations.

Close Scope Q_scope.
Open Scope string_scope.
Open Scope list_scope.

(** ** JavaScript object literals

    An object literal is kept as the list of its [key: value] pairs in
    source order.  Property order is observable (it is the order in which
    keyframe blocks are emitted), and keeping the pairs makes "no two
    entries share a name" a property of the data instead of a property of
    the container. *)

Module JsObject.

Definition t (A : Type) : Type := list (string * A).

Definition keys {A : Type} (o : t A) : list string := map fst o.

(** Own-property read [o[k]].  When a literal repeats a key the later
    pair wins, so the list is searched to its end. *)
Fixpoint get {A : Type} (k : string) (o : t A) : option A :=
  match o with
  | [] => None
  | (k', v) :: o' =>
      match get k o' with
      | Some v' => Some v'
      | None => if String.eqb k k' then Some v else None
      end
  end.

End JsObject.

(** ** The configuration object (src/unnamed/part_000, lines 3-43) *)

Module TailwindConfig.

(** CSS declarations of one keyframe: property name to value. *)
Definition Declarations : Type := JsObject.t string.

(** One [@keyframes] body: keyframe selector to declarations. *)
Definition KeyframeBlock : Type := JsObject.t Declarations.

Definition content : list string :=
  [ "./src/app/**/*.{ts,tsx}"; "./src/components/**/*.{ts,tsx}" ].

Definition plugins : list string := [].

Definition keyframes : JsObject.t KeyframeBlock :=
  [ ("fadeIn",
      [ ("0%", [ ("opacity", "0") ]);
        ("100%", [ ("opacity", "1") ]) ]);
    ("zoomPulse",
      [ ("0%, 100%", [ ("transform", "scale(1)") ]);
        ("50%", [ ("transform", "scale(0.75)") ]) ]);
    ("swingRotate",
      [ ("0%", [ ("transform", "rotate(0deg)") ]);
        ("15%", [ ("transform", "rotate(-20deg)") ]);
        ("30%", [ ("transform", "rotate(15deg)") ]);
        ("45%", [ ("transform", "rotate(-10deg)") ]);
        ("60%", [ ("transform", "rotate(6deg)") ]);
        ("75%", [ ("transform", "rotate(-3deg)") ]);
        ("100%", [ ("transform", "rotate(0deg)") ]) ]) ].

Definition animation : JsObject.t string :=
  [ ("fadeIn", "fadeIn 3s ease-in-out forwards");
    ("zoomPulse", "zoomPulse 2s ease-in-out infinite");
    ("swingRotate", "swingRotate 2s cubic-bezier(0.4, 0, 0.2, 1) infinite") ].

End TailwindConfig.

(** ** Lexical helpers on character lists *)

Module Lex.

Definition chars (s : string) : list ascii := list_ascii_of_string s.
Definition text (cs : list ascii) : string := string_of_list_ascii cs.

Definition is_space (c : ascii) : bool := Ascii.eqb c " ".

Fixpoint drop_spaces (cs : list ascii) : list ascii :=
  match cs with
  | c :: cs' => if is_space c then drop_spaces cs' else cs
  | [] => []
  end.

Definition trim (cs : list ascii) : list ascii :=
  rev (drop_spaces (rev (drop_spaces cs))).

(** [split_top sep depth cur cs] cuts [cs] at every [sep] that is not
    inside parentheses; [cur] is the piece being read, reversed. *)
Fixpoint split_top (sep : ascii) (depth : nat) (cur cs : list ascii)
  : list (list ascii) :=
  match cs with
  | [] => [rev cur]
  | c :: cs' =>
      if Ascii.eqb c "(" then split_top sep (S depth) (c :: cur) cs'
      else if Ascii.eqb c ")" then split_top sep (pred depth) (c :: cur) cs'
      else if Ascii.eqb c sep && Nat.eqb depth 0
           then rev cur :: split_top sep 0 [] cs'
           else split_top sep depth (c :: cur) cs'
  end.

Definition split (sep : ascii) (cs : list ascii) : list (list ascii) :=
  split_top sep 0 [] cs.

Definition nonempty (cs : list ascii) : bool :=
  match cs with [] => false | _ :: _ => true end.

(** Whitespace-separated words, parenthesised groups kept whole. *)
Definition words (cs : list ascii) : list (list ascii) :=
  filter nonempty (split " " cs).

Fixpoint strip_prefix (p cs : list ascii) : option (list ascii) :=
  match p, cs with
  | [], _ => Some cs
  | a :: p', c :: cs' => if Ascii.eqb a c then strip_prefix p' cs' else None
  | _ :: _, [] => None
  end.

Definition strip_suffix (p cs : list ascii) : option (list ascii) :=
  option_map (@rev ascii) (strip_prefix (rev p) (rev cs)).

End Lex.

(** ** CSS numbers, as exact rationals

    A literal with [k] fractional digits is read as its digits over [10^k],
    unreduced, so that ["0.4"] is the rational written [0.4]. *)

Module CssNumber.

Definition digit (c : ascii) : option Z :=
  let n := nat_of_ascii c in
  if (48 <=? n)%nat && (n <=? 57)%nat then Some (Z.of_nat (n - 48)) else None.

(** Value of a run of decimal digits, most significant first. *)
Fixpoint digits (acc : Z) (cs : list ascii) : option Z :=
  match cs with
  | [] => Some acc
  | c :: cs' =>
      match digit c with
      | Some d => digits (10 * acc + d)%Z cs'
      | None => None
      end
  end.

Definition unsigned (cs : list ascii) : option Q :=
  match Lex.split "." cs with
  | [i] => if Lex.nonempty i then option_map inject_Z (digits 0 i) else None
  | [i; f] =>
      if Lex.nonempty f then
        match digits 0 i, digits 0 f with
        | Some iv, Some fv =>
            let scale := (10 ^ Z.of_nat (List.length f))%Z in
            Some (Qmake (iv * scale + fv) (Z.to_pos scale))
        | _, _ => None
        end
      else None
  | _ => None
  end.

(** [-]digits[.digits] *)
Definition parse (cs : list ascii) : option Q :=
  match cs with
  | "-"%char :: cs' => option_map Qopp (unsigned cs')
  | _ => unsigned cs
  end.

(** Digits only: what the shorthand accepts as an iteration count. *)
Definition natural (cs : list ascii) : option N :=
  if Lex.nonempty cs then option_map Z.to_N (digits 0 cs) else None.

End CssNumber.

(** ** Keyframe selectors

    A selector is a comma-separated list of [from], [to] and percentages;
    a block whose selector lists several offsets applies at each of them. *)

Module KeyframeSelector.

Definition offset (cs : list ascii) : option Q :=
  let w := Lex.trim cs in
  if String.eqb (Lex.text w) "from" then Some 0%Q
  else if String.eqb (Lex.text w) "to" then Some 100%Q
  else match Lex.strip_suffix ["%"%char] w with
       | Some n => CssNumber.parse n
       | None => None
       end.

Fixpoint all_some {A : Type} (l : list (option A)) : option (list A) :=
  match l with
  | [] => Some []
  | Some a :: l' => option_map (cons a) (all_some l')
  | None :: _ => None
  end.

Definition offsets (selector : string) : option (list Q) :=
  all_some (map offset (Lex.split "," (Lex.chars selector))).

End KeyframeSelector.

(** ** The [animation] shorthand *)

Inductive TimingFunction : Type :=
| Linear
| Ease
| EaseIn
| EaseOut
| EaseInOut
| StepStart
| StepEnd
| CubicBezier (x1 y1 x2 y2 : Q).

Inductive IterationPolicy : Type :=
| Count (n : N)
| Infinite.

Inductive FillMode : Type := FillNone | Forwards | Backwards | Both.

Inductive Direction : Type := Normal | Reverse | Alternate | AlternateReverse.

Inductive PlayState : Type := Running | Paused.

Module Shorthand.

(** What one shorthand value states; a longhand it leaves out is [None]. *)
Record t : Type := mk {
  name : option string;
  duration : option Q;
  delay : option Q;
  timing : option TimingFunction;
  iteration : option IterationPolicy;
  fill : option FillMode;
  direction : option Direction;
  play : option PlayState;
  unknown : list string
}.

Definition empty : t := mk None None None None None None None None [].

(** A time is a number followed by [s] or [ms]; the value is in seconds. *)
Definition time (w : list ascii) : option Q :=
  match Lex.strip_suffix (Lex.chars "ms") w with
  | Some n => option_map (fun q => Qmake (Qnum q) (Qden q * 1000)) (CssNumber.parse n)
  | None =>
      match Lex.strip_suffix (Lex.chars "s") w with
      | Some n => CssNumber.parse n
      | None => None
      end
  end.

Definition timing_keyword (w : string) : option TimingFunction :=
  if String.eqb w "linear" then Some Linear
  else if String.eqb w "ease" then Some Ease
  else if String.eqb w "ease-in" then Some EaseIn
  else if String.eqb w "ease-out" then Some EaseOut
  else if String.eqb w "ease-in-out" then Some EaseInOut
  else if String.eqb w "step-start" then Some StepStart
  else if String.eqb w "step-end" then Some StepEnd
  else None.

Definition cubic_bezier (w : list ascii) : option TimingFunction :=
  match Lex.strip_prefix (Lex.chars "cubic-bezier(") w with
  | Some rest =>
      match Lex.strip_suffix [")"%char] rest with
      | Some args =>
          match map (fun a => CssNumber.parse (Lex.trim a)) (Lex.split "," args) with
          | [Some x1; Some y1; Some x2; Some y2] => Some (CubicBezier x1 y1 x2 y2)
          | _ => None
          end
      | None => None
      end
  | None => None
  end.

Definition timing_function (w : list ascii) : option TimingFunction :=
  match timing_keyword (Lex.text w) with
  | Some f => Some f
  | None => cubic_bezier w
  end.

Definition iteration_count (w : list ascii) : option IterationPolicy :=
  if String.eqb (Lex.text w) "infinite" then Some Infinite
  else option_map Count (CssNumber.natural w).

Definition fill_mode (w : string) : option FillMode :=
  if String.eqb w "none" then Some FillNone
  else if String.eqb w "forwards" then Some Forwards
  else if String.eqb w "backwards" then Some Backwards
  else if String.eqb w "both" then Some Both
  else None.

Definition direction_keyword (w : string) : option Direction :=
  if String.eqb w "normal" then Some Normal
  else if String.eqb w "reverse" then Some Reverse
  else if String.eqb w "alternate" then Some Alternate
  else if String.eqb w "alternate-reverse" then Some AlternateReverse
  else None.

Definition play_state (w : string) : option PlayState :=
  if String.eqb w "running" then Some Running
  else if String.eqb w "paused" then Some Paused
  else None.

Definition unset {A : Type} (o : option A) : bool :=
  match o with None => true | Some _ => false end.

Definition set_name (v : string) (sh : t) : t :=
  mk (Some v) (duration sh) (delay sh) (timing sh) (iteration sh)
     (fill sh) (direction sh) (play sh) (unknown sh).
Definition set_duration (v : Q) (sh : t) : t :=
  mk (name sh) (Some v) (delay sh) (timing sh) (iteration sh)
     (fill sh) (direction sh) (play sh) (unknown sh).
Definition set_delay (v : Q) (sh : t) : t :=
  mk (name sh) (duration sh) (Some v) (timing sh) (iteration sh)
     (fill sh) (direction sh) (play sh) (unknown sh).
Definition set_timing (v : TimingFunction) (sh : t) : t :=
  mk (name sh) (duration sh) (delay sh) (Some v) (iteration sh)
     (fill sh) (direction sh) (play sh) (unknown sh).
Definition set_iteration (v : IterationPolicy) (sh : t) : t :=
  mk (name sh) (duration sh) (delay sh) (timing sh) (Some v)
     (fill sh) (direction sh) (play sh) (unknown sh).
Definition set_fill (v : FillMode) (sh : t) : t :=
  mk (name sh) (duration sh) (delay sh) (timing sh) (iteration sh)
     (Some v) (direction sh) (play sh) (unknown sh).
Definition set_direction (v : Direction) (sh : t) : t :=
  mk (name sh) (duration sh) (delay sh) (timing sh) (iteration sh)
     (fill sh) (Some v) (play sh) (unknown sh).
Definition set_play (v : PlayState) (sh : t) : t :=
  mk (name sh) (duration sh) (delay sh) (timing sh) (iteration sh)
     (fill sh) (direction sh) (Some v) (unknown sh).
Definition reject (s : string) (sh : t) : t :=
  mk (name sh) (duration sh) (delay sh) (timing sh) (iteration sh)
     (fill sh) (direction sh) (play sh) (unknown sh ++ [s]).

(** [accept slot v set] offers the reading [v] of a word to a longhand:
    it is taken when the word reads as that longhand and the longhand is
    still unset. *)
Definition accept {A B : Type} (slot : option A) (v : option B) (set : B -> t)
  : option t :=
  if unset slot then option_map set v else None.

Definition orelse (a : option t) (b : t) : t :=
  match a with Some sh => sh | None => b end.

(** One word of the shorthand is offered in turn to the direction, the play
    state, the fill mode, the iteration count, the timing function, the
    duration, the delay and the name; the first that accepts it takes it,
    and a word that none accepts is kept as unknown. *)
Definition word (sh : t) (w : list ascii) : t :=
  let s := Lex.text w in
  orelse (accept (direction sh) (direction_keyword s) (fun v => set_direction v sh))
  (orelse (accept (play sh) (play_state s) (fun v => set_play v sh))
  (orelse (accept (fill sh) (fill_mode s) (fun v => set_fill v sh))
  (orelse (accept (iteration sh) (iteration_count w) (fun v => set_iteration v sh))
  (orelse (accept (timing sh) (timing_function w) (fun v => set_timing v sh))
  (orelse (accept (duration sh) (time w) (fun v => set_duration v sh))
  (orelse (accept (delay sh) (time w) (fun v => set_delay v sh))
  (orelse (accept (name sh) (Some s) (fun v => set_name v sh))
          (reject s sh)))))))).

Definition parse (value : string) : t :=
  fold_left word (Lex.words (Lex.chars value)) empty.

End Shorthand.

(** ** The animation table *)

(** Modelled from the spec: the record [AnimationDefinition] of section 3;
    the configuration holds a definition only as an entry of
    [theme.extend.animation] (a shorthand string) and one of
    [theme.extend.keyframes].  Longhands that a shorthand leaves out take
    their CSS initial values (duration [0s], timing [ease], iteration
    count [1]); the fill mode stays optional. *)
Record AnimationDefinition : Type := mkAnimationDefinition {
  name : string;
  keyframes : list (Q * TailwindConfig.Declarations);
  duration : Q;
  timingFunction : TimingFunction;
  iterationPolicy : IterationPolicy;
  fillMode : option FillMode
}.

Module AnimationTable.

Definition Declarations : Type := TailwindConfig.Declarations.
Definition KeyframeBlock : Type := TailwindConfig.KeyframeBlock.

Definition or_initial {A : Type} (o : option A) (initial : A) : A :=
  match o with Some a => a | None => initial end.

(** The keyframes of a block, one pair per offset of each selector, in
    the order the block lists them. *)
Fixpoint frames (block : KeyframeBlock) : option (list (Q * Declarations)) :=
  match block with
  | [] => Some []
  | (selector, decls) :: block' =>
      match KeyframeSelector.offsets selector, frames block' with
      | Some os, Some rest => Some (map (fun o => (o, decls)) os ++ rest)
      | _, _ => None
      end
  end.

(** The definition bound to utility [key] by shorthand [value]. *)
Definition define (key value : string) : option AnimationDefinition :=
  let sh := Shorthand.parse value in
  match Shorthand.name sh with
  | None => None
  | Some kf =>
      match JsObject.get kf TailwindConfig.keyframes with
      | None => None
      | Some block =>
          match frames block with
          | None => None
          | Some fs =>
              Some {| name := key;
                      keyframes := fs;
                      duration := or_initial (Shorthand.duration sh) 0%Q;
                      timingFunction := or_initial (Shorthand.timing sh) Ease;
                      iterationPolicy := or_initial (Shorthand.iteration sh) (Count 1);
                      fillMode := Shorthand.fill sh |}
          end
      end
  end.

(** Modelled from the spec: the lookup operation [resolve(name)] of
    section 4.1, which the repository leaves to the styling tool.  It
    reads [theme.extend.animation] at [name] and completes the entry from
    [theme.extend.keyframes]; an absent name is the "not found" signal
    [None]. *)
Definition resolve (n : string) : option AnimationDefinition :=
  match JsObject.get n TailwindConfig.animation with
  | None => None
  | Some value => define n value
  end.

(** The names bound by the table, and its entries in source order. *)
Definition names : list string := JsObject.keys TailwindConfig.animation.

Fixpoint collect (o : JsObject.t string) : list AnimationDefinition :=
  match o with
  | [] => []
  | (k, v) :: o' =>
      match define k v with
      | Some d => d :: collect o'
      | None => collect o'
      end
  end.

Definition entries : list AnimationDefinition := collect TailwindConfig.animation.

(** The keyframes of a definition along the timeline: ordered by offset,
    pairs of equal offset kept in source order. *)
Fixpoint place (f : Q * Declarations) (l : list (Q * Declarations))
  : list (Q * Declarations) :=
  match l with
  | [] => [f]
  | g :: l' => if Qle_bool (fst g) (fst f) then g :: place f l' else f :: l
  end.

Definition timeline (d : AnimationDefinition) : list (Q * Declarations) :=
  fold_right place [] (keyframes d).

End AnimationTable.

(** ** Content globs

    The patterns of [content] use four constructs: literal characters, [*]
    (any run of characters within one path segment), a leading-directory
    wildcard [**/] (zero or more whole segments) and a brace list of
    literal alternatives.  A [**] that is not followed by [/] is read as
    matching any run of characters, slashes included.  Dot files are not
    treated specially, so the matcher accepts at least the paths a
    dot-ignoring matcher accepts. *)

Module Glob.

Inductive Token : Type :=
| Lit (c : ascii)
| Star
| DirStar
| Deep
| Braces (alternatives : list (list ascii)).

(** Reading state: outside braces, or inside with the alternatives read
    so far, the current one (reversed) and the raw text since the opening
    brace (reversed), kept for a brace that never closes. *)
Inductive Mode : Type :=
| Outside
| Inside (done : list (list ascii)) (cur raw : list ascii).

Fixpoint tokenize (m : Mode) (cs : list ascii) : list Token :=
  match m with
  | Outside =>
      match cs with
      | [] => []
      | "*"%char :: "*"%char :: "/"%char :: rest => DirStar :: tokenize Outside rest
      | "*"%char :: "*"%char :: rest => Deep :: tokenize Outside rest
      | "*"%char :: rest => Star :: tokenize Outside rest
      | "{"%char :: rest => tokenize (Inside [] [] ["{"%char]) rest
      | c :: rest => Lit c :: tokenize Outside rest
      end
  | Inside done cur raw =>
      match cs with
      | [] => map Lit (rev raw)
      | "}"%char :: rest => Braces (done ++ [rev cur]) :: tokenize Outside rest
      | ","%char :: rest => tokenize (Inside (done ++ [rev cur]) [] (","%char :: raw)) rest
      | c :: rest => tokenize (Inside done (c :: cur) (c :: raw)) rest
      end
  end.

Fixpoint matches (p : list Token) (s : list ascii) {struct p} : bool :=
  match p with
  | [] => negb (Lex.nonempty s)
  | Lit c :: p' =>
      match s with
      | a :: s' => Ascii.eqb c a && matches p' s'
      | [] => false
      end
  | Star :: p' =>
      (fix star (s : list ascii) : bool :=
         matches p' s ||
         match s with
         | a :: s' => negb (Ascii.eqb a "/") && star s'
         | [] => false
         end) s
  | DirStar :: p' =>
      matches p' s ||
      (fix dirs (s : list ascii) : bool :=
         match s with
         | a :: s' => (Ascii.eqb a "/" && matches p' s') || dirs s'
         | [] => false
         end) s
  | Deep :: p' =>
      (fix deep (s : list ascii) : bool :=
         matches p' s ||
         match s with
         | _ :: s' => deep s'
         | [] => false
         end) s
  | Braces alternatives :: p' =>
      existsb (fun alt =>
                 match Lex.strip_prefix alt s with
                 | Some s' => matches p' s'
                 | None => false
                 end) alternatives
  end.

(** Patterns and paths are compared without a leading [./]. *)
Definition relative (cs : list ascii) : list ascii :=
  match Lex.strip_prefix (Lex.chars "./") cs with
  | Some rest => rest
  | None => cs
  end.

Definition glob_match (pattern path : string) : bool :=
  matches (tokenize Outside (relative (Lex.chars pattern)))
          (relative (Lex.chars path)).

(** A path is scanned when some pattern of [content] matches it. *)
Definition scanned (path : string) : bool :=
  existsb (fun pattern => glob_match pattern path) TailwindConfig.content.

Definition under (dir : string) (path : string) : Prop :=
  exists rest, relative (Lex.chars path) = Lex.chars dir ++ rest.

Definition has_extension (ext : string) (path : string) : Prop :=
  exists stem, relative (Lex.chars path) = stem ++ Lex.chars ext.

End Glob.

(** ** The lint configuration (src/eslint.config.mjs)

    Of the configuration array, the two objects that select files: the
    [files] of app/files-to-lint and the [ignores] of app/files-to-ignore.
    Both are lists of glob patterns, read by the matcher above. *)

Module EslintConfig.

Definition files_to_lint : list string := [ "**/*.{js,mjs,jsx,vue}" ].

Definition files_to_ignore : list string :=
  [ "**/dist/**";
    "**/dist-ssr/**";
    "**/coverage/**";
    "**/node_modules/**";
    "**/.vite/**";
    "**/.turbo/**";
    "**/build/**";
    "**/out/**";
    "**/*.min.js";
    "**/*.min.css";
    "**/vendor/**";
    "**/generated/**";
    "**/*.d.ts" ].

End EslintConfig.

Module Lint.

(** A path is selected when a pattern of [files] matches it, and ignored
    when a pattern of [ignores] matches it. *)
Definition selected (path : string) : bool :=
  existsb (fun pattern => Glob.glob_match pattern path) EslintConfig.files_to_lint.

Definition ignored (path : string) : bool :=
  existsb (fun pattern => Glob.glob_match pattern path) EslintConfig.files_to_ignore.

(** The directory names and the file-name suffixes that the patterns of
    [ignores] spell: each pattern is [**/name/**] for one of the names or
    [**/*suffix] for one of the suffixes ([ignore_patterns_shape] below). *)
Definition ignored_directories : list string :=
  [ "dist"; "dist-ssr"; "coverage"; "node_modules"; ".vite"; ".turbo";
    "build"; "out"; "vendor"; "generated" ].

Definition ignored_suffixes : list string := [ ".min.js"; ".min.css"; ".d.ts" ].

Definition directory_pattern (name : string) : string := "**/" ++ name ++ "/**".

Definition suffix_pattern (suffix : string) : string := "**/*" ++ suffix.

End Lint.

(** ** Shapes of paths *)

Module Path.

(** A prefix that ends where a path segment begins: nothing, or text up to
    and including a slash. *)
Definition segment_start (pre : list ascii) : Prop :=
  pre = [] \/ exists p, pre = p ++ ["/"%char].

(** Text that stays within one segment. *)
Definition slash_free (s : list ascii) : Prop := ~ In "/"%char s.

End Path.

(** ** The three entries in evaluated form

    What [AnimationTable.entries] computes to; [entries_eval] below checks it. *)

Definition fadeIn : AnimationDefinition :=
  {| name := "fadeIn";
     keyframes := [ (0%Q, [("opacity", "0")]); (100%Q, [("opacity", "1")]) ];
     duration := 3%Q;
     timingFunction := EaseInOut;
     iterationPolicy := Count 1;
     fillMode := Some Forwards |}.

Definition zoomPulse : AnimationDefinition :=
  {| name := "zoomPulse";
     keyframes := [ (0%Q, [("transform", "scale(1)")]);
                    (100%Q, [("transform", "scale(1)")]);
                    (50%Q, [("transform", "scale(0.75)")]) ];
     duration := 2%Q;
     timingFunction := EaseInOut;
     iterationPolicy := Infinite;
     fillMode := None |}.

Definition swingRotate : AnimationDefinition :=
  {| name := "swingRotate";
     keyframes := [ (0%Q, [("transform", "rotate(0deg)")]);
                    (15%Q, [("transform", "rotate(-20deg)")]);
                    (30%Q, [("transform", "rotate(15deg)")]);
                    (45%Q, [("transform", "rotate(-10deg)")]);
                    (60%Q, [("transform", "rotate(6deg)")]);
                    (75%Q, [("transform", "rotate(-3deg)")]);
                    (100%Q, [("transform", "rotate(0deg)")]) ];
     duration := 2%Q;
     timingFunction := CubicBezier 0.4 0 0.2 1;
     iterationPolicy := Infinite;
     fillMode := None |}.

(** * Properties *)

(** ** Object reads *)

Section JsObjectFacts.

Context {A : Type}.

Lemma get_absent (k : string) (o : JsObject.t A) :
  ~ In k (JsObject.keys o) -> JsObject.get k o = None.
Proof.
  induction o as [|[k' v] o IH]; simpl; intros Hk.
  - reflexivity.
  - rewrite IH by tauto.
    destruct (String.eqb_spec k k') as [-> | ]; [tauto | reflexivity].
Qed.

Lemma get_present (k : string) (o : JsObject.t A) :
  In k (JsObject.keys o) -> exists v, JsObject.get k o = Some v.
Proof.
  induction o as [|[k' v] o IH]; simpl; intros Hk.
  - contradiction.
  - destruct (JsObject.get k o) as [v'|] eqn:E; [now exists v'|].
    destruct Hk as [-> | Hk].
    + rewrite String.eqb_refl. now exists v.
    + destruct (IH Hk) as [? ?]. discriminate.
Qed.

Lemma get_some_key (k : string) (o : JsObject.t A) (v : A) :
  JsObject.get k o = Some v -> In (k, v) o.
Proof.
  induction o as [|[k' v'] o IH]; simpl; [discriminate|].
  destruct (JsObject.get k o) as [w|].
  - intros [= ->]. right. now apply IH.
  - destruct (String.eqb_spec k k') as [-> | ]; [|discriminate].
    intros [= ->]. now left.
Qed.

End JsObjectFacts.

(** ** The entries, evaluated *)

Lemma names_eval :
  AnimationTable.names = ["fadeIn"; "zoomPulse"; "swingRotate"].
Proof. reflexivity. Qed.

Lemma entries_eval :
  AnimationTable.entries = [fadeIn; zoomPulse; swingRotate].
Proof. vm_compute. reflexivity. Qed.

(** The shorthand reader on values beyond those of the table: a second
    time is the delay, milliseconds are scaled, a repeated keyword falls
    through to the name. *)
Example shorthand_examples :
  Shorthand.parse "spin 250ms 1.5s 3 alternate both" =
    Shorthand.mk (Some "spin") (Some 0.250%Q) (Some 1.5%Q) None
                 (Some (Count 3)) (Some Both) (Some Alternate) None [] /\
  Shorthand.parse "forwards forwards 1s linear" =
    Shorthand.mk (Some "forwards") (Some 1%Q) None (Some Linear)
                 None (Some Forwards) None None [] /\
  Shorthand.parse "a b 1s" =
    Shorthand.mk (Some "a") (Some 1%Q) None None None None None None ["b"].
Proof. repeat split. Qed.

(** The shorthand of [fadeIn] states no iteration count: the count [1] of
    its definition is the CSS initial value. *)
Lemma fadeIn_iteration_is_initial :
  Shorthand.iteration (Shorthand.parse "fadeIn 3s ease-in-out forwards") = None.
Proof. reflexivity. Qed.

(** The shorthands of [zoomPulse] and [swingRotate] state no fill mode. *)
Lemma infinite_entries_state_no_fill :
  Shorthand.fill (Shorthand.parse "zoomPulse 2s ease-in-out infinite") = None /\
  Shorthand.fill
    (Shorthand.parse "swingRotate 2s cubic-bezier(0.4, 0, 0.2, 1) infinite") = None.
Proof. split; reflexivity. Qed.

Lemma in_entries (d : AnimationDefinition) :
  In d AnimationTable.entries -> d = fadeIn \/ d = zoomPulse \/ d = swingRotate.
Proof.
  rewrite entries_eval. simpl. intuition auto.
Qed.

(** ** Resolving the registered names *)

(** C1: resolving "fadeIn" returns the definition whose keyframes are
    exactly the two pairs (0%, opacity 0) and (100%, opacity 1), with
    duration 3s, timing ease-in-out, iteration count 1 and fill forwards. *)
Theorem resolve_fadeIn :
  AnimationTable.resolve "fadeIn" =
  Some {| name := "fadeIn";
          keyframes := [ (0%Q, [("opacity", "0")]); (100%Q, [("opacity", "1")]) ];
          duration := 3%Q;
          timingFunction := EaseInOut;
          iterationPolicy := Count 1;
          fillMode := Some Forwards |}.
Proof. vm_compute. reflexivity. Qed.

(** C2: resolving "zoomPulse" returns a definition whose keyframes are the
    three pairs (0%, scale(1)), (50%, scale(0.75)) and (100%, scale(1)):
    its keyframe list holds exactly these pairs, and along the timeline
    they come in this order; its duration is 2s, its timing ease-in-out and
    its iteration policy infinite. *)
Theorem resolve_zoomPulse :
  exists d : AnimationDefinition,
    AnimationTable.resolve "zoomPulse" = Some d /\
    Permutation (keyframes d)
                [ (0%Q, [("transform", "scale(1)")]);
                  (50%Q, [("transform", "scale(0.75)")]);
                  (100%Q, [("transform", "scale(1)")]) ] /\
    AnimationTable.timeline d =
      [ (0%Q, [("transform", "scale(1)")]);
        (50%Q, [("transform", "scale(0.75)")]);
        (100%Q, [("transform", "scale(1)")]) ] /\
    duration d = 2%Q /\
    timingFunction d = EaseInOut /\
    iterationPolicy d = Infinite.
Proof.
  exists zoomPulse. split; [vm_compute; reflexivity|].
  split; [|repeat split].
  unfold zoomPulse; simpl.
  apply perm_skip, perm_swap.
Qed.

(** C3: resolving "swingRotate" returns a definition with exactly the seven
    keyframe offsets 0, 15, 30, 45, 60, 75 and 100 percent, carrying the
    transforms rotate(0deg), rotate(-20deg), rotate(15deg), rotate(-10deg),
    rotate(6deg), rotate(-3deg) and rotate(0deg) in that order, with
    duration 2s, timing cubic-bezier(0.4, 0, 0.2, 1) and iteration policy
    infinite. *)
Theorem resolve_swingRotate :
  exists d : AnimationDefinition,
    AnimationTable.resolve "swingRotate" = Some d /\
    map fst (keyframes d) = [0; 15; 30; 45; 60; 75; 100]%Q /\
    map snd (keyframes d) =
      [ [("transform", "rotate(0deg)")];
        [("transform", "rotate(-20deg)")];
        [("transform", "rotate(15deg)")];
        [("transform", "rotate(-10deg)")];
        [("transform", "rotate(6deg)")];
        [("transform", "rotate(-3deg)")];
        [("transform", "rotate(0deg)")] ] /\
    duration d = 2%Q /\
    timingFunction d = CubicBezier 0.4 0 0.2 1 /\
    iterationPolicy d = Infinite.
Proof.
  exists swingRotate. split; [vm_compute; reflexivity|].
  repeat split.
Qed.

(** C4: a name that the table does not register resolves to the "not
    found" result [None]; [resolve] being a function on all strings, no
    input makes it fail otherwise. *)
Theorem resolve_unregistered (n : string) :
  ~ In n AnimationTable.names -> AnimationTable.resolve n = None.
Proof.
  intros Hn. unfold AnimationTable.resolve.
  now rewrite (get_absent n TailwindConfig.animation Hn).
Qed.

Lemma resolve_unregistered_witness :
  ~ In "doesNotExist" AnimationTable.names /\
  AnimationTable.resolve "doesNotExist" = None.
Proof.
  assert (H : ~ In "doesNotExist" AnimationTable.names).
  { rewrite names_eval. simpl. intuition discriminate. }
  split; [exact H | exact (resolve_unregistered "doesNotExist" H)].
Defined.

(** Conversely, each registered name resolves, to a definition of that
    name which is an entry of the table. *)
Lemma resolve_registered (n : string) :
  In n AnimationTable.names ->
  exists d, AnimationTable.resolve n = Some d /\ name d = n /\
            In d AnimationTable.entries.
Proof.
  rewrite names_eval, entries_eval.
  intros [<- | [<- | [<- | []]]];
    [exists fadeIn | exists zoomPulse | exists swingRotate];
    (split; [vm_compute; reflexivity | simpl; tauto]).
Qed.

(** ** Invariants of the table *)

Lemma keyframes_keys_unique : NoDup (JsObject.keys TailwindConfig.keyframes).
Proof.
  repeat constructor; simpl; intuition discriminate.
Qed.

Lemma animation_keys_unique : NoDup (JsObject.keys TailwindConfig.animation).
Proof.
  repeat constructor; simpl; intuition discriminate.
Qed.

Lemma entry_names_eval :
  map name AnimationTable.entries = ["fadeIn"; "zoomPulse"; "swingRotate"].
Proof. now rewrite entries_eval. Qed.

Lemma entry_names_nodup : NoDup (map name AnimationTable.entries).
Proof.
  rewrite entry_names_eval. exact animation_keys_unique.
Qed.

(** C5: two distinct entries of the table (entries at different positions)
    have different names. *)
Theorem entry_names_unique (i j : nat) (d1 d2 : AnimationDefinition) :
  nth_error AnimationTable.entries i = Some d1 ->
  nth_error AnimationTable.entries j = Some d2 ->
  i <> j ->
  name d1 <> name d2.
Proof.
  intros H1 H2 Hij Heq. apply Hij.
  assert (Hlen : i < List.length (map name AnimationTable.entries)).
  { rewrite length_map. apply nth_error_Some. congruence. }
  apply (proj1 (NoDup_nth_error _) entry_names_nodup i j Hlen).
  rewrite !nth_error_map, H1, H2. simpl. now f_equal.
Qed.

Lemma entry_names_unique_witness :
  name fadeIn <> name zoomPulse.
Proof.
  apply (entry_names_unique 0 1 fadeIn zoomPulse).
  - rewrite entries_eval. reflexivity.
  - rewrite entries_eval. reflexivity.
  - discriminate.
Defined.

(** A name selects at most one entry. *)
Lemma entry_of_name (d1 d2 : AnimationDefinition) :
  In d1 AnimationTable.entries -> In d2 AnimationTable.entries ->
  name d1 = name d2 -> d1 = d2.
Proof.
  intros H1 H2.
  destruct (in_entries d1 H1) as [-> | [-> | ->]];
    destruct (in_entries d2 H2) as [-> | [-> | ->]];
    simpl; intros Hn; try reflexivity; discriminate.
Qed.

(** C6: every entry of the table has at least one keyframe, and each of its
    keyframe offsets lies between 0 and 100 percent inclusive. *)
Theorem keyframes_nonempty_in_range (d : AnimationDefinition) :
  In d AnimationTable.entries ->
  keyframes d <> [] /\
  Forall (fun f => 0 <= fst f /\ fst f <= 100)%Q (keyframes d).
Proof.
  intros Hd.
  destruct (in_entries d Hd) as [-> | [-> | ->]];
    (split; [discriminate|]);
    repeat constructor; simpl; unfold Qle; simpl; lia.
Qed.

Lemma keyframes_nonempty_in_range_witness :
  keyframes swingRotate <> [] /\
  Forall (fun f => 0 <= fst f /\ fst f <= 100)%Q (keyframes swingRotate).
Proof.
  apply (keyframes_nonempty_in_range swingRotate).
  rewrite entries_eval. simpl. tauto.
Defined.

(** C7: every entry of the table has a duration strictly greater than zero:
    3s for fadeIn, 2s for zoomPulse and swingRotate. *)
Theorem duration_positive (d : AnimationDefinition) :
  In d AnimationTable.entries ->
  (0 < duration d)%Q /\
  duration d = (if String.eqb (name d) "fadeIn" then 3 else 2)%Q.
Proof.
  intros Hd.
  destruct (in_entries d Hd) as [-> | [-> | ->]]; split; reflexivity.
Qed.

Lemma duration_positive_witness :
  (0 < duration fadeIn)%Q /\
  duration fadeIn = (if String.eqb (name fadeIn) "fadeIn" then 3 else 2)%Q.
Proof.
  apply (duration_positive fadeIn).
  rewrite entries_eval. simpl. tauto.
Defined.

(** C8: an entry of the table whose iteration policy is a finite count has
    a count of at least 1; fadeIn is the only such entry. *)
Theorem finite_count_at_least_one (d : AnimationDefinition) (n : N) :
  In d AnimationTable.entries ->
  iterationPolicy d = Count n ->
  (1 <= n)%N /\ d = fadeIn.
Proof.
  intros Hd Hn.
  destruct (in_entries d Hd) as [-> | [-> | ->]]; simpl in Hn;
    try discriminate.
  injection Hn as <-. split; [lia | reflexivity].
Qed.

Lemma finite_count_at_least_one_witness :
  (1 <= 1)%N /\ fadeIn = fadeIn.
Proof.
  apply (finite_count_at_least_one fadeIn 1).
  - rewrite entries_eval. simpl. tauto.
  - reflexivity.
Defined.

(** C9: the two halves of the configuration agree.  [animation] and
    [keyframes] have the same keys, fadeIn, zoomPulse and swingRotate; the
    shorthand bound to each key names the keyframes entry of that same key
    and nothing else, so each utility has a complete definition built from
    that entry, and each keyframes entry is bound. *)
Theorem animation_keyframes_consistent :
  JsObject.keys TailwindConfig.animation = ["fadeIn"; "zoomPulse"; "swingRotate"] /\
  JsObject.keys TailwindConfig.keyframes = ["fadeIn"; "zoomPulse"; "swingRotate"] /\
  forall k : string,
    In k ["fadeIn"; "zoomPulse"; "swingRotate"] ->
    exists (value : string) (block : TailwindConfig.KeyframeBlock)
           (d : AnimationDefinition),
      JsObject.get k TailwindConfig.animation = Some value /\
      Shorthand.name (Shorthand.parse value) = Some k /\
      Shorthand.unknown (Shorthand.parse value) = [] /\
      JsObject.get k TailwindConfig.keyframes = Some block /\
      AnimationTable.frames block = Some (keyframes d) /\
      AnimationTable.define k value = Some d.
Proof.
  split; [reflexivity|]. split; [reflexivity|].
  intros k [<- | [<- | [<- | []]]].
  - eexists _, _, fadeIn. repeat split; vm_compute; reflexivity.
  - eexists _, _, zoomPulse. repeat split; vm_compute; reflexivity.
  - eexists _, _, swingRotate. repeat split; vm_compute; reflexivity.
Qed.

(** ** Content globs *)

Section GlobFacts.

Import Glob.

Lemma strip_prefix_app (p s r : list ascii) :
  Lex.strip_prefix p s = Some r -> s = p ++ r.
Proof.
  revert s. induction p as [|a p IH]; intros [|c s]; simpl; try discriminate.
  - now intros [= ->].
  - now intros [= ->].
  - destruct (Ascii.eqb_spec a c) as [-> | ]; [|discriminate].
    intros H. now rewrite (IH _ H).
Qed.

Lemma matches_nil (s : list ascii) : matches [] s = true -> s = [].
Proof. destruct s; [reflexivity | discriminate]. Qed.

Lemma matches_lit (c : ascii) (p : list Token) (s : list ascii) :
  matches (Lit c :: p) s = true ->
  exists s', s = c :: s' /\ matches p s' = true.
Proof.
  destruct s as [|a s]; simpl; [discriminate|].
  intros H. apply andb_prop in H as [Hc Hs].
  apply Ascii.eqb_eq in Hc as ->. now exists s.
Qed.

Lemma matches_lits (pre : list ascii) (p : list Token) (s : list ascii) :
  matches (map Lit pre ++ p) s = true ->
  exists r, s = pre ++ r /\ matches p r = true.
Proof.
  revert s. induction pre as [|c pre IH]; intros s H.
  - now exists s.
  - apply matches_lit in H as (s' & -> & H).
    destruct (IH _ H) as (r & -> & Hr). now exists r.
Qed.

(** Whatever [*], [**/] or [**] consume, the rest of the pattern matches
    a suffix of the path. *)
Lemma matches_star (p : list Token) (s : list ascii) :
  matches (Star :: p) s = true ->
  exists a b, s = a ++ b /\ matches p b = true.
Proof.
  induction s as [|c s IH]; simpl; intros H.
  - rewrite orb_false_r in H. now exists [], [].
  - apply orb_prop in H as [H | H].
    + now exists [], (c :: s).
    + apply andb_prop in H as [_ H].
      destruct (IH H) as (a & b & -> & Hb). now exists (c :: a), b.
Qed.

Lemma matches_dirstar (p : list Token) (s : list ascii) :
  matches (DirStar :: p) s = true ->
  exists a b, s = a ++ b /\ matches p b = true.
Proof.
  simpl. intros H. apply orb_prop in H as [H | H].
  - now exists [], s.
  - induction s as [|c s IH]; [discriminate|].
    apply orb_prop in H as [H | H].
    + apply andb_prop in H as [_ H]. now exists [c], s.
    + destruct (IH H) as (a & b & -> & Hb). now exists (c :: a), b.
Qed.

Lemma matches_braces_end (alts : list (list ascii)) (s : list ascii) :
  matches [Braces alts] s = true -> In s alts.
Proof.
  simpl. intros H. apply existsb_exists in H as (alt & Hin & H).
  destruct (Lex.strip_prefix alt s) as [r|] eqn:E; [|discriminate].
  apply strip_prefix_app in E. apply matches_nil in H. subst.
  now rewrite app_nil_r.
Qed.

(** The tail shared by both patterns: [**/*.{ts,tsx}]. *)
Definition any_ts : list Token :=
  [DirStar; Star; Lit "."; Braces [Lex.chars "ts"; Lex.chars "tsx"]].

Lemma any_ts_extension (s : list ascii) :
  matches any_ts s = true ->
  exists stem, s = stem ++ Lex.chars ".ts" \/ s = stem ++ Lex.chars ".tsx".
Proof.
  intros H.
  apply matches_dirstar in H as (a & s1 & -> & H).
  apply matches_star in H as (b & s2 & -> & H).
  apply matches_lit in H as (s3 & -> & H).
  apply matches_braces_end in H.
  exists (a ++ b). rewrite <- !app_assoc.
  destruct H as [<- | [<- | []]]; [left | right]; reflexivity.
Qed.

Lemma tokens_app_glob :
  tokenize Outside (relative (Lex.chars "./src/app/**/*.{ts,tsx}")) =
  map Lit (Lex.chars "src/app/") ++ any_ts.
Proof. reflexivity. Qed.

Lemma tokens_components_glob :
  tokenize Outside (relative (Lex.chars "./src/components/**/*.{ts,tsx}")) =
  map Lit (Lex.chars "src/components/") ++ any_ts.
Proof. reflexivity. Qed.

Lemma scanned_inv (path : string) :
  scanned path = true ->
  exists dir rest,
    (dir = "src/app/" \/ dir = "src/components/") /\
    relative (Lex.chars path) = Lex.chars dir ++ rest /\
    matches any_ts rest = true.
Proof.
  unfold scanned, TailwindConfig.content. cbn [existsb]. unfold glob_match.
  rewrite tokens_app_glob, tokens_components_glob, orb_false_r.
  intros H. apply orb_prop in H as [H | H];
    apply matches_lits in H as (r & Hr & H).
  - exists "src/app/", r. auto.
  - exists "src/components/", r. auto.
Qed.

(** A path cannot end both in [.vue] and in [.ts] or [.tsx]. *)
Lemma vue_is_not_ts (a b : list ascii) :
  a ++ Lex.chars ".vue" <> b ++ Lex.chars ".ts" /\
  a ++ Lex.chars ".vue" <> b ++ Lex.chars ".tsx".
Proof.
  split; intros H; apply (f_equal (@rev ascii)) in H;
    rewrite !rev_app_distr in H; simpl in H; discriminate.
Qed.

End GlobFacts.

(** Paths the patterns do and do not accept. *)
Example scanned_examples :
  map Glob.scanned
      [ "./src/app/page.tsx"; "src/app/a/b/layout.ts";
        "./src/components/ui/Button.tsx";
        "./src/App.vue"; "./src/components/HelloWorld.vue";
        "./src/app/page.tsx.vue"; "./src/main.ts"; "./src/application/x.ts" ] =
  [ true; true; true; false; false; false; false; false ].
Proof. vm_compute. reflexivity. Qed.

(** C10: the content list is exactly the two patterns
    ./src/app/**/*.{ts,tsx} and ./src/components/**/*.{ts,tsx}; a path that
    the list matches lies under src/app/ or src/components/ and ends in .ts
    or .tsx; no path ending in .vue is matched. *)
Theorem content_scans_only_ts :
  TailwindConfig.content =
    [ "./src/app/**/*.{ts,tsx}"; "./src/components/**/*.{ts,tsx}" ] /\
  (forall path : string,
      Glob.scanned path = true ->
      (Glob.under "src/app/" path \/ Glob.under "src/components/" path) /\
      (Glob.has_extension ".ts" path \/ Glob.has_extension ".tsx" path)) /\
  (forall path : string,
      Glob.has_extension ".vue" path -> Glob.scanned path = false).
Proof.
  split; [reflexivity|]. split.
  - intros path H.
    destruct (scanned_inv path H) as (dir & rest & Hdir & Hpath & Hrest).
    split.
    + destruct Hdir as [-> | ->]; [left | right]; now exists rest.
    + destruct (any_ts_extension rest Hrest) as (stem & [-> | ->]);
        [left | right]; exists (Lex.chars dir ++ stem);
        now rewrite Hpath, app_assoc.
  - intros path [stem Hvue].
    destruct (Glob.scanned path) eqn:H; [|reflexivity].
    destruct (scanned_inv path H) as (dir & rest & _ & Hpath & Hrest).
    destruct (any_ts_extension rest Hrest) as (stem' & [-> | ->]);
      rewrite Hvue, app_assoc in Hpath;
      now apply vue_is_not_ts in Hpath.
Qed.

(** * Further properties of the configuration *)

(** ** Shape of the keyframes *)

(** X1: every entry of the table declares a keyframe at 0% and one at
    100%, so each animation is defined from its start to its end. *)
Theorem keyframes_cover_both_ends (d : AnimationDefinition) :
  In d AnimationTable.entries ->
  In 0%Q (map fst (keyframes d)) /\ In 100%Q (map fst (keyframes d)).
Proof.
  intros Hd.
  destruct (in_entries d Hd) as [-> | [-> | ->]]; simpl; tauto.
Qed.

Lemma keyframes_cover_both_ends_witness :
  In 0%Q (map fst (keyframes zoomPulse)) /\
  In 100%Q (map fst (keyframes zoomPulse)).
Proof.
  apply (keyframes_cover_both_ends zoomPulse).
  rewrite entries_eval. simpl. tauto.
Defined.

(** X2: within an entry no two keyframes have the same offset, as
    rationals: no keyframe is declared twice, the selector that lists two
    offsets included. *)
Theorem keyframe_offsets_distinct (d : AnimationDefinition) :
  In d AnimationTable.entries ->
  ForallOrdPairs (fun a b => ~ (a == b)%Q) (map fst (keyframes d)).
Proof.
  intros Hd.
  destruct (in_entries d Hd) as [-> | [-> | ->]]; simpl;
    repeat (constructor; [repeat constructor; unfold Qeq; simpl; lia|]);
    constructor.
Qed.

Lemma keyframe_offsets_distinct_witness :
  ForallOrdPairs (fun a b => ~ (a == b)%Q) (map fst (keyframes swingRotate)).
Proof.
  apply (keyframe_offsets_distinct swingRotate).
  rewrite entries_eval. simpl. tauto.
Defined.

(** X3: an entry that repeats forever has the same declarations at 0% and
    at 100%, so the animation does not jump when it starts over. *)
Theorem infinite_entries_loop (d : AnimationDefinition)
        (first last : TailwindConfig.Declarations) :
  In d AnimationTable.entries ->
  iterationPolicy d = Infinite ->
  In (0%Q, first) (keyframes d) ->
  In (100%Q, last) (keyframes d) ->
  first = last.
Proof.
  intros Hd Hinf H0 H100.
  destruct (in_entries d Hd) as [-> | [-> | ->]]; simpl in *;
    try discriminate; intuition congruence.
Qed.

Lemma infinite_entries_loop_witness :
  [("transform", "rotate(0deg)")] = [("transform", "rotate(0deg)")].
Proof.
  apply (infinite_entries_loop swingRotate).
  - rewrite entries_eval. simpl. tauto.
  - reflexivity.
  - simpl. tauto.
  - simpl. tauto.
Defined.

(** X4: each keyframe of an entry declares exactly one CSS property, and
    all keyframes of the entry declare the same one (opacity for fadeIn,
    transform for the others), so the animated property has a value at
    every keyframe. *)
Theorem keyframes_one_property (d : AnimationDefinition) :
  In d AnimationTable.entries ->
  Forall (fun f => exists value : string,
              snd f = [ (if String.eqb (name d) "fadeIn"
                         then "opacity" else "transform", value) ])
         (keyframes d).
Proof.
  intros Hd.
  destruct (in_entries d Hd) as [-> | [-> | ->]]; simpl;
    repeat constructor; eexists; reflexivity.
Qed.

Lemma keyframes_one_property_witness :
  Forall (fun f => exists value : string,
              snd f = [ (if String.eqb (name fadeIn) "fadeIn"
                         then "opacity" else "transform", value) ])
         (keyframes fadeIn).
Proof.
  apply (keyframes_one_property fadeIn).
  rewrite entries_eval. simpl. tauto.
Defined.


(** ** What each glob construct accepts *)

Section GlobShapes.

Import Glob.

Lemma strip_prefix_self (p r : list ascii) :
  Lex.strip_prefix p (p ++ r) = Some r.
Proof.
  induction p as [|c p IH]; simpl; [reflexivity|].
  now rewrite Ascii.eqb_refl.
Qed.

Lemma nil_iff (s : list ascii) : matches [] s = true <-> s = [].
Proof.
  destruct s; simpl; split; intros H; try reflexivity; discriminate.
Qed.

Lemma lit_iff (c : ascii) (p : list Token) (s : list ascii) :
  matches (Lit c :: p) s = true <->
  exists s', s = c :: s' /\ matches p s' = true.
Proof.
  split.
  - apply matches_lit.
  - intros (s' & -> & H). simpl. now rewrite Ascii.eqb_refl.
Qed.

Lemma lits_iff (pre : list ascii) (p : list Token) (s : list ascii) :
  matches (map Lit pre ++ p) s = true <->
  exists r, s = pre ++ r /\ matches p r = true.
Proof.
  split.
  - apply matches_lits.
  - intros (r & -> & H). induction pre as [|c pre IH]; [exact H|].
    apply lit_iff. now exists (pre ++ r).
Qed.

Lemma star_iff (p : list Token) (s : list ascii) :
  matches (Star :: p) s = true <->
  exists a b, s = a ++ b /\ Path.slash_free a /\ matches p b = true.
Proof.
  split.
  - induction s as [|c s IH]; simpl; intros H.
    + rewrite orb_false_r in H. exists [], []. repeat split; auto.
      intros [].
    + apply orb_prop in H as [H | H].
      * exists [], (c :: s). repeat split; auto. intros [].
      * apply andb_prop in H as [Hc H].
        destruct (IH H) as (a & b & -> & Ha & Hb).
        exists (c :: a), b. repeat split; auto.
        intros [E | Hin]; [subst c; discriminate | now apply Ha].
  - intros (a & b & -> & Ha & Hb).
    induction a as [|c a IH].
    + destruct b; simpl; simpl in Hb; now rewrite Hb.
    + simpl. apply orb_true_iff. right. apply andb_true_iff. split.
      * destruct (Ascii.eqb_spec c "/") as [E | ]; [|reflexivity].
        exfalso. apply Ha. left. exact E.
      * apply IH. intros Hin. apply Ha. now right.
Qed.

(** The search of [**/] for a slash after which the rest matches. *)
Lemma dirs_iff (p : list Token) (s : list ascii) :
  (fix dirs (s : list ascii) : bool :=
     match s with
     | a :: s' => (Ascii.eqb a "/" && matches p s') || dirs s'
     | [] => false
     end) s = true <->
  exists a b, s = a ++ "/"%char :: b /\ matches p b = true.
Proof.
  split.
  - induction s as [|c s IH]; [discriminate|].
    intros H. apply orb_prop in H as [H | H].
    + apply andb_prop in H as [Hc H]. apply Ascii.eqb_eq in Hc as ->.
      now exists [], s.
    + destruct (IH H) as (a & b & -> & Hb). now exists (c :: a), b.
  - intros (a & b & -> & Hb). induction a as [|c a IH]; simpl.
    + now rewrite Hb.
    + apply orb_true_iff. right. exact IH.
Qed.

Lemma dirstar_iff (p : list Token) (s : list ascii) :
  matches (DirStar :: p) s = true <->
  exists a b, s = a ++ b /\ Path.segment_start a /\ matches p b = true.
Proof.
  simpl. rewrite orb_true_iff, dirs_iff. split.
  - intros [H | (a & b & -> & Hb)].
    + exists [], s. repeat split; auto. now left.
    + exists (a ++ ["/"%char]), b. rewrite <- app_assoc.
      repeat split; auto. right. now exists a.
  - intros (a & b & -> & [-> | (a' & ->)] & Hb).
    + now left.
    + right. exists a', b. now rewrite <- app_assoc.
Qed.

Lemma deep_iff (p : list Token) (s : list ascii) :
  matches (Deep :: p) s = true <->
  exists a b, s = a ++ b /\ matches p b = true.
Proof.
  split.
  - induction s as [|c s IH]; simpl; intros H.
    + rewrite orb_false_r in H. now exists [], [].
    + apply orb_prop in H as [H | H].
      * now exists [], (c :: s).
      * destruct (IH H) as (a & b & -> & Hb). now exists (c :: a), b.
  - intros (a & b & -> & Hb).
    induction a as [|c a IH].
    + destruct b; simpl; simpl in Hb; now rewrite Hb.
    + simpl. apply orb_true_iff. right. exact IH.
Qed.

Lemma braces_iff (alts : list (list ascii)) (p : list Token) (s : list ascii) :
  matches (Braces alts :: p) s = true <->
  exists alt r, In alt alts /\ s = alt ++ r /\ matches p r = true.
Proof.
  simpl. rewrite existsb_exists. split.
  - intros (alt & Hin & H).
    destruct (Lex.strip_prefix alt s) as [r|] eqn:E; [|discriminate].
    apply strip_prefix_app in E. now exists alt, r.
  - intros (alt & r & Hin & -> & H). exists alt. split; [exact Hin|].
    now rewrite strip_prefix_self.
Qed.

(** [**/*.{e1,...}]: a file name with one of the extensions, at any depth. *)
Lemma extension_shape (exts : list (list ascii)) (s : list ascii) :
  matches [DirStar; Star; Lit "."; Braces exts] s = true <->
  exists pre stem ext,
    Path.segment_start pre /\ Path.slash_free stem /\ In ext exts /\
    s = pre ++ stem ++ "."%char :: ext.
Proof.
  split.
  - intros H.
    apply dirstar_iff in H as (pre & s1 & -> & Hpre & H).
    apply star_iff in H as (stem & s2 & -> & Hstem & H).
    apply lit_iff in H as (s3 & -> & H).
    apply braces_iff in H as (ext & r & Hin & -> & H).
    apply nil_iff in H as ->. rewrite app_nil_r.
    now exists pre, stem, ext.
  - intros (pre & stem & ext & Hpre & Hstem & Hin & ->).
    apply dirstar_iff. exists pre, (stem ++ "."%char :: ext).
    repeat split; auto.
    apply star_iff. exists stem, ("."%char :: ext). repeat split; auto.
    apply lit_iff. exists ext. split; [reflexivity|].
    apply braces_iff. exists ext, []. rewrite app_nil_r.
    repeat split; auto.
Qed.

(** [**/*suffix]: a file name that ends in the suffix, at any depth. *)
Lemma suffix_shape (suffix s : list ascii) :
  matches (DirStar :: Star :: map Lit suffix) s = true <->
  exists pre stem,
    Path.segment_start pre /\ Path.slash_free stem /\
    s = pre ++ stem ++ suffix.
Proof.
  rewrite <- (app_nil_r (map Lit suffix)). split.
  - intros H.
    apply dirstar_iff in H as (pre & s1 & -> & Hpre & H).
    apply star_iff in H as (stem & s2 & -> & Hstem & H).
    apply lits_iff in H as (r & -> & H).
    apply nil_iff in H as ->. rewrite app_nil_r.
    now exists pre, stem.
  - intros (pre & stem & Hpre & Hstem & ->).
    apply dirstar_iff. exists pre, (stem ++ suffix). repeat split; auto.
    apply star_iff. exists stem, suffix. repeat split; auto.
    apply lits_iff. exists []. now rewrite app_nil_r.
Qed.

(** [**/dir/**]: anything below a directory of that name, at any depth. *)
Lemma directory_shape (dir s : list ascii) :
  matches (DirStar :: map Lit (dir ++ ["/"%char]) ++ [Deep]) s = true <->
  exists pre rest,
    Path.segment_start pre /\ s = pre ++ dir ++ "/"%char :: rest.
Proof.
  split.
  - intros H.
    apply dirstar_iff in H as (pre & s1 & -> & Hpre & H).
    apply lits_iff in H as (rest & -> & _).
    exists pre, rest. rewrite <- app_assoc. now split.
  - intros (pre & rest & Hpre & ->).
    apply dirstar_iff. exists pre, (dir ++ "/"%char :: rest).
    repeat split; auto.
    change (dir ++ "/"%char :: rest) with (dir ++ ["/"%char] ++ rest).
    rewrite app_assoc. apply lits_iff. exists rest. split; [reflexivity|].
    apply deep_iff. now exists rest, []; rewrite app_nil_r.
Qed.

End GlobShapes.

(** ** Which paths the patterns select *)

Section Selection.

Import Glob.

Lemma lint_files_tokens :
  tokenize Outside (relative (Lex.chars "**/*.{js,mjs,jsx,vue}")) =
  [DirStar; Star; Lit ".";
   Braces [Lex.chars "js"; Lex.chars "mjs"; Lex.chars "jsx"; Lex.chars "vue"]].
Proof. reflexivity. Qed.

Lemma ignore_patterns_shape (pattern : string) :
  In pattern EslintConfig.files_to_ignore <->
  (exists name, In name Lint.ignored_directories /\
                pattern = Lint.directory_pattern name) \/
  (exists suffix, In suffix Lint.ignored_suffixes /\
                  pattern = Lint.suffix_pattern suffix).
Proof.
  transitivity
    (In pattern (map Lint.directory_pattern Lint.ignored_directories ++
                 map Lint.suffix_pattern Lint.ignored_suffixes)).
  - simpl. tauto.
  - rewrite in_app_iff, !in_map_iff.
    split; intros [(x & H1 & H2) | (x & H1 & H2)];
      [left | right | left | right]; exists x; auto.
Qed.

Lemma directory_tokens (name : string) :
  In name Lint.ignored_directories ->
  tokenize Outside (relative (Lex.chars (Lint.directory_pattern name))) =
  DirStar :: map Lit (Lex.chars name ++ ["/"%char]) ++ [Deep].
Proof.
  intros H. simpl in H.
  repeat destruct H as [<- | H]; try reflexivity. contradiction.
Qed.

Lemma suffix_tokens (suffix : string) :
  In suffix Lint.ignored_suffixes ->
  tokenize Outside (relative (Lex.chars (Lint.suffix_pattern suffix))) =
  DirStar :: Star :: map Lit (Lex.chars suffix).
Proof.
  intros H. simpl in H.
  repeat destruct H as [<- | H]; try reflexivity. contradiction.
Qed.

End Selection.


(** X7: the files pattern of the lint configuration selects exactly the
    paths that name, at any depth, a file with extension js, mjs, jsx or
    vue. *)
Theorem selected_iff (path : string) :
  Lint.selected path = true <->
  exists pre stem ext : list ascii,
    Path.segment_start pre /\ Path.slash_free stem /\
    In ext [Lex.chars "js"; Lex.chars "mjs"; Lex.chars "jsx"; Lex.chars "vue"] /\
    Glob.relative (Lex.chars path) = pre ++ stem ++ "."%char :: ext.
Proof.
  unfold Lint.selected, EslintConfig.files_to_lint. cbn [existsb].
  unfold Glob.glob_match.
  rewrite lint_files_tokens, orb_false_r.
  apply extension_shape.
Qed.

(** X8: no path is both scanned for class names by the content list and
    selected by the files pattern of the lint configuration. *)
Theorem scanned_not_selected (path : string) :
  Glob.scanned path = true -> Lint.selected path = false.
Proof.
  intros H. destruct (Lint.selected path) eqn:S; [exfalso | reflexivity].
  destruct (scanned_inv path H) as (dir & rest & _ & Hrel & Hrest).
  unfold Lint.selected, EslintConfig.files_to_lint in S. cbn [existsb] in S.
  unfold Glob.glob_match in S.
  rewrite lint_files_tokens, orb_false_r in S.
  apply extension_shape in S as (pre & stem' & ext & _ & _ & Hext & Hrel').
  rewrite Hrel in Hrel'. apply (f_equal (@rev ascii)) in Hrel'.
  destruct (any_ts_extension rest Hrest) as (stem & [-> | ->]);
    simpl in Hext; destruct Hext as [<- | [<- | [<- | [<- | []]]]];
    rewrite !rev_app_distr in Hrel'; unfold Lex.chars in Hrel';
    simpl in Hrel'; discriminate.
Qed.

Lemma scanned_not_selected_witness :
  Lint.selected "./src/app/page.tsx" = false.
Proof.
  apply (scanned_not_selected "./src/app/page.tsx"). reflexivity.
Defined.

(** X9: the ignore list of the lint configuration matches exactly the
    paths that lie below a directory named dist, dist-ssr, coverage,
    node_modules, .vite, .turbo, build, out, vendor or generated (at any
    depth), and the paths whose file name ends in .min.js, .min.css or
    .d.ts. *)
Theorem ignored_iff (path : string) :
  Lint.ignored path = true <->
  (exists (pre : list ascii) (name : string) (rest : list ascii),
      In name Lint.ignored_directories /\ Path.segment_start pre /\
      Glob.relative (Lex.chars path) = pre ++ Lex.chars name ++ "/"%char :: rest) \/
  (exists (pre stem : list ascii) (suffix : string),
      In suffix Lint.ignored_suffixes /\
      Path.segment_start pre /\ Path.slash_free stem /\
      Glob.relative (Lex.chars path) = pre ++ stem ++ Lex.chars suffix).
Proof.
  unfold Lint.ignored. rewrite existsb_exists. split.
  - intros (pattern & Hp & H). unfold Glob.glob_match in H.
    apply ignore_patterns_shape in Hp as [(name & Hn & ->) | (suffix & Hs & ->)].
    + rewrite (directory_tokens name Hn) in H.
      apply directory_shape in H as (pre & rest & Hpre & Hrel).
      left. now exists pre, name, rest.
    + rewrite (suffix_tokens suffix Hs) in H.
      apply suffix_shape in H as (pre & stem & Hpre & Hstem & Hrel).
      right. now exists pre, stem, suffix.
  - intros [(pre & name & rest & Hn & Hpre & Hrel) |
            (pre & stem & suffix & Hs & Hpre & Hstem & Hrel)].
    + exists (Lint.directory_pattern name). split.
      * apply ignore_patterns_shape. left. now exists name.
      * unfold Glob.glob_match. rewrite (directory_tokens name Hn).
        apply directory_shape. now exists pre, rest.
    + exists (Lint.suffix_pattern suffix). split.
      * apply ignore_patterns_shape. right. now exists suffix.
      * unfold Glob.glob_match. rewrite (suffix_tokens suffix Hs).
        apply suffix_shape. now exists pre, stem.
Qed.

(** Paths the lint patterns do and do not match. *)
Example lint_examples :
  map (fun path => (Lint.selected path, Lint.ignored path))
      [ "src/App.vue"; "./src/main.js"; "eslint.config.mjs";
        "dist/assets/index.js"; "node_modules/vue/dist/vue.min.js";
        "public/lib.min.js"; "src/types/env.d.ts"; "src/distance/a.js";
        "tailwind.config.ts" ] =
  [ (true, false); (true, false); (true, false);
    (true, true); (true, true);
    (true, true); (false, true); (true, false);
    (false, false) ].
Proof. vm_compute. reflexivity. Qed.
